(** * The Phase 8 RLS migration generator (scripts/generate_phase8_migration.py)

    A shallow embedding of the script: the clause optimizer
    ([optimize_clause], five [re.sub] calls), the per-policy emitter
    ([generate_policy_sql]) and the assembly of the migration text ([main]).

    Modelling decisions.
    - A Python [str] is a [string]; each character is one code point below 256.
    - A policy record is the JSON object [json.load] returns, a dictionary
      from keys to values; the values considered are strings and [null]
      ([option string], [None] for Python's [None]).
    - An exception is an [Err] result; [policy['k']] on a missing key is
      [KeyError].
    - [main] is the function from the loaded list of records to the text
      handed to [f.write]; the two [open] calls and the [print] calls are
      left out. *)

From Stdlib Require Import Ascii.
From stdpp Require Import gmap strings list sorting pretty.

Local Arguments String.append : simpl nomatch.

(** ** Text helpers *)

(** The newline and the double quote, as one-character strings. *)
Definition nl : string := String "010"%char EmptyString.
Definition dq : string := String "034"%char EmptyString.

(** [starts_with p s]: the literal text [p] stands at the start of [s]. *)
Fixpoint starts_with (p s : string) : bool :=
  match p, s with
  | EmptyString, _ => true
  | String _ _, EmptyString => false
  | String a p', String c s' => Ascii.eqb a c && starts_with p' s'
  end.

(** [contains p s]: [p] occurs somewhere in [s] (Python's [p in s]). *)
Fixpoint contains (p s : string) : bool :=
  starts_with p s ||
  match s with
  | EmptyString => false
  | String _ s' => contains p s'
  end.

(** ** Regular-expression substitution *)

Module Re.

(** Python's [\w] for a [str] pattern: a Unicode alphanumeric or the
    underscore, here on the code points below 256. *)
Definition is_word (c : ascii) : bool :=
  let n := N_of_ascii c in
  ((48 <=? n) && (n <=? 57)
   || (65 <=? n) && (n <=? 90)
   || (n =? 95)
   || (97 <=? n) && (n <=? 122)
   || (n =? 170) || (n =? 178) || (n =? 179) || (n =? 181)
   || (n =? 185) || (n =? 186)
   || (188 <=? n) && (n <=? 190)
   || (192 <=? n) && (n <=? 214)
   || (216 <=? n) && (n <=? 246)
   || (248 <=? n))%N.

(** Whether the character next to the current position is a word
    character; the end of the text counts as a non-word character. *)
Definition word_at (s : string) : bool :=
  match s with
  | String c _ => is_word c
  | EmptyString => false
  end.

(** [\b]: exactly one of the two neighbours of the position is a word
    character.  [behind] is the text to the left of the position, nearest
    character first; [ahead] is the text from the position on. *)
Definition word_boundary (behind ahead : string) : bool :=
  xorb (word_at behind) (word_at ahead).

(** [(?<!lit)]: the text to the left does not end with [lit]. *)
Definition not_preceded_by (lit behind : string) : bool :=
  negb (starts_with (String.rev lit) behind).

Section Sub.
(** A pattern made of zero-width assertions ([guard]) followed by a
    literal text [lit], which is not empty, and the replacement text. *)
Variable guard : string → string → bool.
Variable lit : string.
Variable repl : string.

Definition matches_at (behind ahead : string) : bool :=
  starts_with lit ahead && guard behind ahead.

(** The scan of [re.sub]: from left to right, a match is replaced and the
    scan goes on after it, any other character is copied.  [skip] counts
    the characters of the current match that are still to be passed. *)
Fixpoint scan (behind ahead : string) (skip : nat) : string :=
  match ahead with
  | EmptyString => EmptyString
  | String c rest =>
      match skip with
      | S k => scan (String c behind) rest k
      | 0 =>
          if matches_at behind ahead
          then repl +:+ scan (String c behind) rest (String.length lit - 1)
          else String c (scan (String c behind) rest 0)
      end
  end.

(** The scan of [s] with the text [before] standing to its left. *)
Definition sub_after (before s : string) : string :=
  scan (String.rev before) s 0.

Definition sub (s : string) : string := sub_after EmptyString s.

(** [clash_free q]: no text starts both with the replacement and with a
    part of [q] that goes to the end of [q].  Used to tell copied text
    from replacements in a result. *)
Fixpoint clash_free (q : string) : bool :=
  match q with
  | EmptyString => true
  | String _ q' =>
      negb (starts_with q repl || starts_with repl q) && clash_free q'
  end.
End Sub.

End Re.

(** ** The clause optimizer *)

(** [(?<!\(SELECT )\bauth\.uid\(\)] *)
Definition auth_uid_guard (behind ahead : string) : bool :=
  Re.not_preceded_by "(SELECT " behind && Re.word_boundary behind ahead.

(** The other four patterns are plain literals. *)
Definition no_guard (_ _ : string) : bool := true.

Definition wrap_auth_uid : string → string :=
  Re.sub auth_uid_guard "auth.uid()" "(SELECT auth.uid())".

Definition wrap_has_role : string → string :=
  Re.sub no_guard "has_role(auth.uid()" "has_role((SELECT auth.uid())".

Definition wrap_is_dev_admin : string → string :=
  Re.sub no_guard "is_dev_admin(auth.uid()" "is_dev_admin((SELECT auth.uid())".

Definition wrap_has_permission : string → string :=
  Re.sub no_guard "has_permission(auth.uid()"
    "has_permission((SELECT auth.uid())".

Definition wrap_is_event_manager : string → string :=
  Re.sub no_guard "is_event_manager(auth.uid()"
    "is_event_manager((SELECT auth.uid())".

(** Two left contexts that the guard of the first pattern cannot tell apart,
    however the text goes on: the relation between what the scan has read
    and what it has written. *)
Definition same_guard (behind behind' : string) : Prop :=
  ∀ t ahead,
    auth_uid_guard (t +:+ behind) ahead = auth_uid_guard (t +:+ behind') ahead.

(** What the statements about occurrences say of the text before one:
    that it ends with a given text, that it ends with a word character. *)
Definition ends_with (suffix s : string) : bool :=
  starts_with (String.rev suffix) (String.rev s).

Definition ends_with_word (s : string) : bool := Re.word_at (String.rev s).

(** Python's truth value of a string or [None]. *)
Definition truthy (v : option string) : bool :=
  match v with
  | Some (String _ _) => true
  | _ => false
  end.

Definition optimize_clause (clause : option string) : option string :=
  match clause with
  | Some (String _ _ as clause) =>
      let clause := wrap_auth_uid clause in
      let clause := wrap_has_role clause in
      let clause := wrap_is_dev_admin clause in
      let clause := wrap_has_permission clause in
      let clause := wrap_is_event_manager clause in
      Some clause
  | _ => None
  end.

(** The optimizer reduced to its first substitution, to compare with
    [optimize_clause]: the same test for an absent or empty clause, then
    [wrap_auth_uid] alone. *)
Definition optimize_clause_rule1_only (clause : option string)
  : option string :=
  match clause with
  | Some (String _ _ as clause) => Some (wrap_auth_uid clause)
  | _ => None
  end.

(** ** Exceptions *)

Inductive error : Type :=
  | KeyError (key : string)
  | TypeError.

Inductive result (A : Type) : Type :=
  | Ok (a : A)
  | Err (e : error).
Arguments Ok {A} a.
Arguments Err {A} e.

Global Instance result_ret : MRet result := λ A a, Ok a.
Global Instance result_bind : MBind result := λ A B f m,
  match m with
  | Ok a => f a
  | Err e => Err e
  end.

(** ** The per-policy emitter *)

(** [d[key]] *)
Definition getitem (d : gmap string (option string)) (key : string)
  : result (option string) :=
  match d !! key with
  | Some v => Ok v
  | None => Err (KeyError key)
  end.

(** What an f-string prints for a value. *)
Definition str (v : option string) : string :=
  match v with
  | Some s => s
  | None => "None"
  end.

Definition generate_policy_sql (policy : gmap string (option string))
  : result string :=
  tablename ← getitem policy "tablename";
  policyname ← getitem policy "policyname";
  cmd ← getitem policy "cmd";
  using_clause ← getitem policy "using_clause";
  let using_clause := optimize_clause using_clause in
  with_check_clause ← getitem policy "with_check_clause";
  let with_check_clause := optimize_clause with_check_clause in
  let sql :=
    "DROP POLICY IF EXISTS " +:+ dq +:+ str policyname +:+ dq +:+ " ON "
      +:+ str tablename +:+ ";" +:+ nl in
  let sql := sql +:+ "CREATE POLICY " +:+ dq +:+ str policyname +:+ dq +:+ nl in
  let sql := sql +:+ "  ON " +:+ str tablename +:+ " FOR " +:+ str cmd +:+ nl in
  let sql :=
    if truthy using_clause
    then sql +:+ "  USING (" +:+ nl +:+ "    " +:+ str using_clause +:+ nl
           +:+ "  )"
    else sql in
  let sql :=
    if truthy with_check_clause
    then sql +:+ nl +:+ "  WITH CHECK (" +:+ nl +:+ "    "
           +:+ str with_check_clause +:+ nl +:+ "  )"
    else sql in
  mret (sql +:+ ";" +:+ nl).

(** ** The assembly of the migration text *)

(** The grouping loop of [main], from the dictionary built so far. *)
Fixpoint group_by_table
    (tables : gmap (option string) (list (gmap string (option string))))
    (policies : list (gmap string (option string)))
  : result (gmap (option string) (list (gmap string (option string)))) :=
  match policies with
  | [] => mret tables
  | policy :: policies =>
      tablename ← getitem policy "tablename";
      let tables :=
        match tables !! tablename with
        | None => <[tablename := []]> tables
        | Some _ => tables
        end in
      group_by_table (alter (λ bucket, bucket ++ [policy]) tablename tables)
        policies
  end.

(** [sorted(tables.keys())]: strings are ordered by code points; comparing
    [None] with another key raises [TypeError], and a list of at most one key
    is compared with nothing.  The keys of a dictionary are distinct, so the
    order in which they are handed over does not show in the result. *)
Definition sorted (keys : list (option string))
  : result (list (option string)) :=
  match keys with
  | [] | [_] => mret keys
  | _ =>
      names ← mapM (λ key : option string,
                      match key with
                      | Some name => Ok name
                      | None => Err TypeError
                      end) keys;
      mret (Some <$> merge_sort String.le names)
  end.

Definition rule_eq : string :=
  "-- ============================================================================".
Definition rule_dash : string :=
  "-- ----------------------------------------------------------------------------".

(** The header template after [.format(count=..., table_count=...)]. *)
Definition header (count table_count : nat) : string :=
  rule_eq +:+ nl
  +:+ "-- RLS Policy Optimization - Phase 8: COMPLETE DATABASE OPTIMIZATION" +:+ nl
  +:+ rule_eq +:+ nl
  +:+ "--" +:+ nl
  +:+ "-- This migration fixes ALL remaining unoptimized RLS policies in the database."
  +:+ nl
  +:+ "-- Total: " +:+ pretty count +:+ " policies across " +:+ pretty table_count
  +:+ " tables" +:+ nl
  +:+ "--" +:+ nl
  +:+ "-- Pattern: Wrap ALL auth.uid(), has_role(), is_dev_admin() calls in (SELECT ...)"
  +:+ nl
  +:+ "-- to ensure per-query evaluation instead of per-row evaluation." +:+ nl
  +:+ "--" +:+ nl
  +:+ "-- Performance Impact: 10-100x faster queries, eliminates all performance warnings"
  +:+ nl
  +:+ rule_eq +:+ nl
  +:+ nl.

Definition footer : string :=
  rule_eq +:+ nl
  +:+ "-- End of Phase 8 Migration" +:+ nl
  +:+ rule_eq +:+ nl
  +:+ "--" +:+ nl
  +:+ "-- Verification: Run this query to confirm no unoptimized policies remain"
  +:+ nl
  +:+ "--" +:+ nl
  +:+ "-- SELECT COUNT(*) as remaining_unoptimized" +:+ nl
  +:+ "-- FROM pg_policies" +:+ nl
  +:+ "-- WHERE schemaname = 'public'" +:+ nl
  +:+ "--   AND (" +:+ nl
  +:+ "--     qual LIKE '%auth.uid()%'" +:+ nl
  +:+ "--     OR qual LIKE '%has_role(auth.uid()%'" +:+ nl
  +:+ "--     OR qual LIKE '%is_dev_admin(auth.uid()%'" +:+ nl
  +:+ "--   )" +:+ nl
  +:+ "--   AND (" +:+ nl
  +:+ "--     qual NOT LIKE '%(SELECT auth.uid())%'" +:+ nl
  +:+ "--     AND COALESCE(with_check, '') NOT LIKE '%(SELECT auth.uid())%'" +:+ nl
  +:+ "--   );" +:+ nl
  +:+ "--" +:+ nl
  +:+ "-- Expected result: 0" +:+ nl
  +:+ rule_eq +:+ nl.

(** The three banner lines of a table and the blank line after them. *)
Definition banner (tablename : option string) (count : nat) : string :=
  rule_dash +:+ nl
  +:+ "-- TABLE: " +:+ str tablename +:+ " (" +:+ pretty count +:+ " policies)" +:+ nl
  +:+ rule_dash +:+ nl +:+ nl.

(** The inner loop: the statements of one table, appended to the text. *)
Fixpoint emit_policies (migration_sql : string)
    (table_policies : list (gmap string (option string))) : result string :=
  match table_policies with
  | [] => mret migration_sql
  | policy :: table_policies =>
      sql ← generate_policy_sql policy;
      emit_policies ((migration_sql +:+ sql) +:+ nl) table_policies
  end.

(** The outer loop, over the sorted table names. *)
Fixpoint emit_tables
    (tables : gmap (option string) (list (gmap string (option string))))
    (migration_sql : string) (names : list (option string)) : result string :=
  match names with
  | [] => mret migration_sql
  | tablename :: names =>
      let table_policies := tables !!! tablename in
      let migration_sql :=
        migration_sql +:+ banner tablename (length table_policies) in
      migration_sql ← emit_policies migration_sql table_policies;
      emit_tables tables migration_sql names
  end.

Definition main (policies : list (gmap string (option string)))
  : result string :=
  tables ← group_by_table ∅ policies;
  let migration_sql := header (length policies) (size tables) in
  names ← sorted (map_to_list tables).*1;
  migration_sql ← emit_tables tables migration_sql names;
  mret (migration_sql +:+ footer).

(** ** Notions used in the statements *)

(** The keys [generate_policy_sql] reads. *)
Definition required_keys : list string :=
  ["tablename"; "policyname"; "cmd"; "using_clause"; "with_check_clause"].

(** The three lines every statement starts with. *)
Definition statement_head (tablename policyname cmd : option string)
  : string :=
  "DROP POLICY IF EXISTS " +:+ dq +:+ str policyname +:+ dq +:+ " ON "
  +:+ str tablename +:+ ";" +:+ nl
  +:+ "CREATE POLICY " +:+ dq +:+ str policyname +:+ dq +:+ nl
  +:+ "  ON " +:+ str tablename +:+ " FOR " +:+ str cmd +:+ nl.

(** The two optional blocks, for an optimized clause or no clause. *)
Definition using_block (clause : option string) : string :=
  match clause with
  | Some clause => "  USING (" +:+ nl +:+ "    " +:+ clause +:+ nl +:+ "  )"
  | None => EmptyString
  end.

Definition with_check_block (clause : option string) : string :=
  match clause with
  | Some clause =>
      nl +:+ "  WITH CHECK (" +:+ nl +:+ "    " +:+ clause +:+ nl +:+ "  )"
  | None => EmptyString
  end.

(** A record of the expected shape: the five keys are there and the table
    name is a string. *)
Definition well_formed (policy : gmap string (option string)) : bool :=
  match policy !! "tablename" with
  | Some (Some _) => true
  | _ => false
  end
  && forallb (λ key, bool_decide (is_Some (policy !! key))) required_keys.

(** The records of one table, in the order of the input. *)
Definition bucket (tablename : option string)
    (policies : list (gmap string (option string)))
  : list (gmap string (option string)) :=
  filter (λ policy, policy !! "tablename" = Some tablename) policies.

(** The table names of the input, each one once. *)
Definition distinct_tables (policies : list (gmap string (option string)))
  : list string :=
  remove_dups (omap (λ policy, default None (policy !! "tablename")) policies).

(** The statement of a record, for a record that has one. *)
Definition statement_of (policy : gmap string (option string)) : string :=
  match generate_policy_sql policy with
  | Ok sql => sql
  | Err _ => EmptyString
  end.

Definition cat (texts : list string) : string :=
  foldr String.append EmptyString texts.

(** The statements of a list of records, each followed by a blank line. *)
Definition statements (policies : list (gmap string (option string)))
  : string :=
  cat ((λ policy, statement_of policy +:+ nl) <$> policies).

(** The part of the document for one table: its banner, with the number of
    records of the input on that table, and their statements. *)
Definition table_section (policies : list (gmap string (option string)))
    (name : string) : string :=
  banner (Some name) (length (bucket (Some name) policies))
  +:+ statements (bucket (Some name) policies).

(** The number of places of [s] where [p] stands. *)
Fixpoint occurrences (p s : string) : nat :=
  (if starts_with p s then 1 else 0) +
  match s with
  | EmptyString => 0
  | String _ s' => occurrences p s'
  end.


(** ** Sample records *)

(** The record of the round-trip scenario. *)
Definition policy_p1 : gmap string (option string) :=
  {[ "tablename" := Some "orders"; "policyname" := Some "p1";
     "cmd" := Some "SELECT"; "using_clause" := Some "auth.uid() = user_id";
     "with_check_clause" := None ]}.

(** A second record on [orders] and one on [accounts]. *)
Definition policy_p2 : gmap string (option string) :=
  {[ "tablename" := Some "orders"; "policyname" := Some "p2";
     "cmd" := Some "UPDATE"; "using_clause" := Some "owner = auth.uid()";
     "with_check_clause" := Some "has_role(auth.uid(), 'admin')" ]}.

Definition policy_a1 : gmap string (option string) :=
  {[ "tablename" := Some "accounts"; "policyname" := Some "a1";
     "cmd" := Some "INSERT"; "using_clause" := None;
     "with_check_clause" := Some "true" ]}.

(** Two records on [orders] with the one on [accounts] between them. *)
Definition three_policies : list (gmap string (option string)) :=
  [policy_p1; policy_a1; policy_p2].

(** Membership of a key in [required_keys]. *)
Ltac key_in :=
  unfold required_keys;
  repeat first [apply list_elem_of_here | apply list_elem_of_further].

(** * Facts about texts *)

Section Text.
Implicit Types (p q s t : string) (a c : ascii).

Lemma append_nil_r s : s +:+ EmptyString = s.
Proof. induction s; simpl; congruence. Qed.

Lemma append_assoc s t q : (s +:+ t) +:+ q = s +:+ t +:+ q.
Proof. induction s; simpl; congruence. Qed.

Lemma append_length s t :
  String.length (s +:+ t) = String.length s + String.length t.
Proof. induction s; simpl; congruence. Qed.

Lemma rev_app_app s t q :
  String.rev_app (s +:+ t) q = String.rev_app t (String.rev_app s q).
Proof. revert q. induction s; intros q; simpl; auto. Qed.

Lemma starts_with_cons a p c s :
  starts_with (String a p) (String c s) = Ascii.eqb a c && starts_with p s.
Proof. reflexivity. Qed.

Lemma starts_with_spec p s :
  starts_with p s = true ↔ ∃ t, s = p +:+ t.
Proof.
  revert s. induction p as [|a p IH]; intros s.
  - split; [eauto|done].
  - destruct s as [|c s].
    + split; [done|]. by intros [t ?].
    + rewrite starts_with_cons, andb_true_iff, Ascii.eqb_eq, IH. split.
      * intros [-> [t ->]]. by exists t.
      * intros [t Ht]. simpl in Ht. injection Ht as -> ->. eauto.
Qed.

Lemma starts_with_app p t : starts_with p (p +:+ t) = true.
Proof. apply starts_with_spec. eauto. Qed.

(** Two texts that start the same way: one stands at the start of the
    other. *)
Lemma app_eq_app_starts s t p q :
  s +:+ t = p +:+ q → starts_with s p = true ∨ starts_with p s = true.
Proof.
  revert p. induction s as [|a s IH]; intros [|c p] H; simpl in *; auto.
  injection H as -> H. rewrite Ascii.eqb_refl. simpl. eauto.
Qed.

Lemma rev_app_rev s q : String.rev_app s q = String.rev s +:+ q.
Proof.
  unfold String.rev. revert q. induction s as [|c s IH]; intros q; [done|].
  cbn [String.rev_app]. by rewrite (IH (String c q)), (IH (String c _)), append_assoc.
Qed.

Lemma rev_app_distr s t : String.rev (s +:+ t) = String.rev t +:+ String.rev s.
Proof. unfold String.rev at 1. by rewrite rev_app_app, rev_app_rev. Qed.

Lemma rev_involutive s : String.rev (String.rev s) = s.
Proof.
  induction s as [|c s IH]; [done|].
  unfold String.rev at 2. cbn [String.rev_app].
  by rewrite rev_app_rev, rev_app_distr, IH.
Qed.

Lemma ends_with_spec p s : ends_with p s = true ↔ ∃ t, s = t +:+ p.
Proof.
  unfold ends_with. rewrite starts_with_spec. split.
  - intros [t Ht]. exists (String.rev t).
    by rewrite <- (rev_involutive s), Ht, rev_app_distr, rev_involutive.
  - intros [t ->]. exists (String.rev t). apply rev_app_distr.
Qed.

Lemma ends_with_word_spec s :
  ends_with_word s = true
  ↔ ∃ t c, s = t +:+ String c EmptyString ∧ Re.is_word c = true.
Proof.
  unfold ends_with_word. split.
  - destruct (String.rev s) as [|c t] eqn:E; [done|]. intros Hc.
    exists (String.rev t), c. split; [|done].
    rewrite <- (rev_involutive s), E. unfold String.rev at 1.
    cbn [String.rev_app]. apply rev_app_rev.
  - intros (t & c & -> & Hc). by rewrite rev_app_distr.
Qed.

Lemma contains_spec p s :
  contains p s = true ↔ ∃ t q, s = t +:+ p +:+ q.
Proof.
  induction s as [|c s IH].
  - simpl. rewrite orb_false_r, starts_with_spec. split.
    + intros [q ->]. by exists EmptyString, q.
    + intros (t & q & H). destruct t; [eauto|done].
  - cbn [contains]. rewrite orb_true_iff, starts_with_spec, IH. split.
    + intros [[q ->]|(t & q & ->)].
      * by exists EmptyString, q.
      * by exists (String c t), q.
    + intros (t & q & H). destruct t as [|c' t].
      * left. eauto.
      * right. injection H as -> ->. eauto.
Qed.
End Text.

(** * Facts about the substitution scan *)

Section Scan.
Variable guard : string → string → bool.
Variable lit : string.
Variable repl : string.
Hypothesis lit_nonempty : lit ≠ EmptyString.

Local Abbreviation matches_at := (Re.matches_at guard lit).
Local Abbreviation scan := (Re.scan guard lit repl).
Local Abbreviation clash_free := (Re.clash_free repl).

Lemma lit_cons : ∃ a l, lit = String a l.
Proof. destruct lit as [|a l]; [done|eauto]. Qed.

(** Passing the rest of a match. *)
Lemma scan_skip x behind rest :
  scan behind (x +:+ rest) (String.length x)
  = scan (String.rev_app x behind) rest 0.
Proof.
  revert behind. induction x as [|c x IH]; intros behind; [done|].
  simpl. apply IH.
Qed.

(** The three equations of the scan. *)
Lemma scan_nil behind : scan behind EmptyString 0 = EmptyString.
Proof. done. Qed.

Lemma scan_match behind rest :
  guard behind (lit +:+ rest) = true →
  scan behind (lit +:+ rest) 0
  = repl +:+ scan (String.rev_app lit behind) rest 0.
Proof.
  intros Hg.
  assert (Hm : matches_at behind (lit +:+ rest) = true).
  { unfold Re.matches_at. by rewrite starts_with_app, Hg. }
  destruct lit_cons as (a & l & El).
  assert (Ea : lit +:+ rest = String a (l +:+ rest)) by by rewrite El.
  rewrite Ea in Hm |- *. cbn [Re.scan]. rewrite Hm. f_equal.
  replace (String.length lit - 1) with (String.length l)
    by (rewrite El; simpl; lia).
  rewrite scan_skip. by rewrite El.
Qed.

Lemma scan_copy behind c rest :
  matches_at behind (String c rest) = false →
  scan behind (String c rest) 0
  = String c (scan (String c behind) rest 0).
Proof. intros Hm. cbn [Re.scan]. by rewrite Hm. Qed.

(** Induction along the scan: over the empty text, over a match and over a
    copied character. *)
Lemma scan_ind (Q : string → string → Prop) :
  (∀ behind, Q behind EmptyString) →
  (∀ behind rest,
     guard behind (lit +:+ rest) = true →
     Q (String.rev_app lit behind) rest → Q behind (lit +:+ rest)) →
  (∀ behind c rest,
     matches_at behind (String c rest) = false →
     Q (String c behind) rest → Q behind (String c rest)) →
  ∀ behind ahead, Q behind ahead.
Proof.
  intros Hnil Hmatch Hcopy behind ahead.
  remember (String.length ahead) as n eqn:En.
  revert behind ahead En.
  induction (lt_wf n) as [n _ IH]; intros behind ahead ->.
  destruct ahead as [|c rest]; [apply Hnil|].
  destruct (matches_at behind (String c rest)) eqn:Hm.
  - apply andb_true_iff in Hm as [[t Ht]%starts_with_spec Hg].
    rewrite Ht in Hg |- *. apply Hmatch; [done|].
    eapply IH; [|done]. rewrite Ht, append_length.
    destruct lit; [done|simpl; lia].
  - apply Hcopy; [done|]. eapply IH; [|done]. simpl. lia.
Qed.

(** The result of a text that is not empty is not empty, when the
    replacement is not. *)
Lemma scan_nonempty behind c rest :
  repl ≠ EmptyString → scan behind (String c rest) 0 ≠ EmptyString.
Proof.
  intros Hr. cbn [Re.scan]. destruct matches_at; [|done].
  destruct repl; done.
Qed.

(** A result that starts with such a [q] comes from a text that starts
    with [q], copied character by character. *)
Lemma scan_starts_with q behind ahead out :
  clash_free q = true →
  scan behind ahead 0 = q +:+ out →
  ∃ rest, ahead = q +:+ rest ∧ scan (String.rev_app q behind) rest 0 = out.
Proof.
  revert behind ahead.
  induction q as [|a q IH]; intros behind ahead Hq H; [by exists ahead|].
  cbn [Re.clash_free] in Hq.
  apply andb_true_iff in Hq as [Hclash Hq].
  apply negb_true_iff, orb_false_iff in Hclash as [Hc1 Hc2].
  destruct ahead as [|c rest]; [done|].
  destruct (matches_at behind (String c rest)) eqn:Hm.
  - cbn [Re.scan] in H. rewrite Hm in H. symmetry in H.
    apply app_eq_app_starts in H as [H|H]; congruence.
  - rewrite scan_copy in H by done. injection H as -> H.
    destruct (IH _ _ Hq H) as (rest' & -> & Hout). by exists rest'.
Qed.

(** A text in which the guard fails at every occurrence of the literal is
    left as it is. *)
Lemma scan_quiet behind ahead :
  (∀ pre post,
     ahead = pre +:+ lit +:+ post →
     guard (String.rev_app pre behind) (lit +:+ post) = false) →
  scan behind ahead 0 = ahead.
Proof.
  revert behind. induction ahead as [|c rest IH]; intros behind H; [done|].
  rewrite scan_copy.
  - f_equal. apply IH. intros pre post ->.
    by apply (H (String c pre) post).
  - apply andb_false_iff.
    destruct (starts_with lit (String c rest)) eqn:Hs; [right|by left].
    apply starts_with_spec in Hs as [post Hs]. rewrite Hs.
    by apply (H EmptyString post).
Qed.
End Scan.

(** * The first pattern: [auth.uid()] not after [(SELECT ] *)

Section AuthUid.
Local Abbreviation lit1 := "auth.uid()" (only parsing).
Local Abbreviation repl1 := "(SELECT auth.uid())" (only parsing).
Local Abbreviation scan1 := (Re.scan auth_uid_guard lit1 repl1).

(** The guard reads one character ahead only. *)
Lemma auth_uid_guard_ahead behind c ahead ahead' :
  auth_uid_guard behind (String c ahead)
  = auth_uid_guard behind (String c ahead').
Proof. reflexivity. Qed.

Lemma same_guard_refl behind : same_guard behind behind.
Proof. by intros t ahead. Qed.

Lemma same_guard_cons c behind behind' :
  same_guard behind behind' →
  same_guard (String c behind) (String c behind').
Proof.
  intros H t ahead.
  replace (t +:+ String c behind)
    with ((t +:+ String c EmptyString) +:+ behind) by by rewrite append_assoc.
  replace (t +:+ String c behind')
    with ((t +:+ String c EmptyString) +:+ behind') by by rewrite append_assoc.
  apply H.
Qed.

(** After a match the scan has read [auth.uid()] and written
    [(SELECT auth.uid())]: both end with a closing parenthesis, which is
    no part of [(SELECT ]. *)
Lemma same_guard_match behind behind' :
  same_guard (String.rev_app lit1 behind) (String.rev_app repl1 behind').
Proof.
  intros t ahead. unfold auth_uid_guard. f_equal.
  - unfold Re.not_preceded_by. f_equal.
    change (String.rev "(SELECT ") with " TCELES(".
    cbn [String.rev_app].
    do 8 (destruct t as [|? t];
          [by vm_compute
          |cbn [String.append]; rewrite !starts_with_cons; f_equal]).
  - by destruct t.
Qed.

(** In the result of the scan the guard fails at every [auth.uid()]:
    each one stands after [(SELECT ] or after a word character. *)
Lemma scan1_protected behind ahead :
  ∀ behind' pre post,
    same_guard behind behind' →
    scan1 behind ahead 0 = pre +:+ lit1 +:+ post →
    auth_uid_guard (String.rev_app pre behind') (lit1 +:+ post) = false.
Proof.
  pattern behind, ahead.
  apply (scan_ind auth_uid_guard lit1); [done|..]; clear behind ahead.
  - intros behind behind' pre post _ H. by destruct pre.
  - intros behind rest Hg IH behind' pre post Hsame H.
    rewrite scan_match in H by done.
    do 19 (destruct pre as [|? pre];
           [first [discriminate H | reflexivity]
           |cbn [String.append] in H; injection H as <- H]).
    cbn [String.rev_app].
    eapply IH; [|exact H]. apply same_guard_match.
  - intros behind c rest Hm IH behind' pre post Hsame H.
    destruct pre as [|c' pre].
    + apply (scan_starts_with _ _ _ lit1) in H as (rest' & Hrest & _);
        [|done].
      cbn [String.append] in Hrest. injection Hrest as -> ->.
      unfold Re.matches_at in Hm. cbn [String.rev_app].
      rewrite <- (Hsame EmptyString). exact Hm.
    + rewrite scan_copy in H by done.
      cbn [String.append] in H. injection H as <- H.
      cbn [String.rev_app]. eapply IH; [|exact H].
      by apply same_guard_cons.
Qed.

(** [auth.uid()] does not overlap itself. *)
Lemma auth_uid_overlap pre post t :
  pre +:+ lit1 +:+ post = lit1 +:+ t →
  pre = EmptyString ∨ starts_with lit1 pre = true.
Proof.
  intros H. destruct pre as [|? pre]; [by left|right].
  cbn [String.append] in H. injection H as -> H.
  do 9 (destruct pre as [|? pre]; cbn [String.append] in H;
        [discriminate H|injection H as -> H]).
  done.
Qed.

(** The scan of a text up to an occurrence of [auth.uid()] does not
    depend on what follows, and goes on at the occurrence. *)
Lemma scan1_app behind pre :
  ∀ post,
    scan1 behind (pre +:+ lit1 +:+ post) 0
    = scan1 behind pre 0
      +:+ scan1 (String.rev_app pre behind) (lit1 +:+ post) 0.
Proof.
  pattern behind, pre.
  apply (scan_ind auth_uid_guard lit1); [done|..]; clear behind pre.
  - done.
  - intros behind rest Hg IH post.
    rewrite append_assoc.
    rewrite (scan_match auth_uid_guard lit1 repl1 ltac:(done) behind rest Hg).
    rewrite (scan_match auth_uid_guard lit1 repl1 ltac:(done) behind
               (rest +:+ lit1 +:+ post) Hg).
    by rewrite IH, append_assoc, rev_app_app.
  - intros behind c rest Hm IH post.
    change (String c rest +:+ lit1 +:+ post)
      with (String c (rest +:+ lit1 +:+ post)).
    rewrite (scan_copy auth_uid_guard lit1 repl1 behind c rest Hm).
    rewrite (scan_copy auth_uid_guard lit1 repl1 behind c
               (rest +:+ lit1 +:+ post)); [by rewrite IH|].
    unfold Re.matches_at in *.
    apply andb_false_iff in Hm as [Hs|Hg]; [|by rewrite andb_false_iff; right].
    apply andb_false_iff. left.
    destruct (starts_with lit1 (String c (rest +:+ lit1 +:+ post))) eqn:Hs';
      [|done].
    apply starts_with_spec in Hs' as [t Ht].
    apply (auth_uid_overlap (String c rest)) in Ht as [?|?]; congruence.
Qed.

(** At an occurrence: replaced where the guard holds, copied where not. *)
Lemma scan1_at_occurrence behind post :
  scan1 behind (lit1 +:+ post) 0
  = (if auth_uid_guard behind (lit1 +:+ post) then repl1 else lit1)
    +:+ scan1 (String.rev_app lit1 behind) post 0.
Proof.
  destruct (auth_uid_guard behind (lit1 +:+ post)) eqn:Hg.
  - by apply scan_match.
  - cbn [String.append] in *.
    rewrite scan_copy by (unfold Re.matches_at; by rewrite Hg, andb_false_r).
    by do 9 (rewrite scan_copy by reflexivity).
Qed.

Lemma auth_uid_guard_rev pre post :
  auth_uid_guard (String.rev pre) (lit1 +:+ post)
  = negb (ends_with "(SELECT " pre) && negb (ends_with_word pre).
Proof.
  unfold auth_uid_guard, Re.not_preceded_by, ends_with, ends_with_word.
  unfold Re.word_boundary. by destruct Re.word_at.
Qed.
End AuthUid.

(** * The optimizer after its first substitution *)

Section Optimizer.
Lemma wrap_auth_uid_protected s pre post :
  wrap_auth_uid s = pre +:+ "auth.uid()" +:+ post →
  auth_uid_guard (String.rev pre) ("auth.uid()" +:+ post) = false.
Proof. apply scan1_protected, same_guard_refl. Qed.

Lemma wrap_auth_uid_idem s : wrap_auth_uid (wrap_auth_uid s) = wrap_auth_uid s.
Proof.
  unfold wrap_auth_uid at 1. apply scan_quiet. intros pre post.
  apply wrap_auth_uid_protected.
Qed.

Lemma wrap_auth_uid_nonempty c s : wrap_auth_uid (String c s) ≠ EmptyString.
Proof. by apply scan_nonempty. Qed.

(** A helper pattern is a name, an opening parenthesis and [auth.uid()]:
    after the first substitution no [auth.uid()] stands after an opening
    parenthesis, so the pattern is nowhere. *)
Lemma wrap_auth_uid_no_helper name s pre post :
  wrap_auth_uid s ≠ pre +:+ (name +:+ "(auth.uid()") +:+ post.
Proof.
  intros H.
  replace (pre +:+ (name +:+ "(auth.uid()") +:+ post)
    with ((pre +:+ name +:+ "(") +:+ "auth.uid()" +:+ post) in H
    by by rewrite !append_assoc.
  apply wrap_auth_uid_protected in H.
  unfold String.rev in H. rewrite !rev_app_app in H.
  cbn [String.rev_app] in H. discriminate H.
Qed.

Lemma wrap_helper_quiet name repl s :
  Re.sub no_guard (name +:+ "(auth.uid()") repl (wrap_auth_uid s)
  = wrap_auth_uid s.
Proof.
  apply scan_quiet. intros pre post H.
  by apply wrap_auth_uid_no_helper in H.
Qed.

Lemma wrap_helpers_quiet s :
  wrap_is_event_manager
    (wrap_has_permission (wrap_is_dev_admin (wrap_has_role (wrap_auth_uid s))))
  = wrap_auth_uid s.
Proof.
  assert (wrap_has_role (wrap_auth_uid s) = wrap_auth_uid s) as ->
    by apply (wrap_helper_quiet "has_role").
  assert (wrap_is_dev_admin (wrap_auth_uid s) = wrap_auth_uid s) as ->
    by apply (wrap_helper_quiet "is_dev_admin").
  assert (wrap_has_permission (wrap_auth_uid s) = wrap_auth_uid s) as ->
    by apply (wrap_helper_quiet "has_permission").
  apply (wrap_helper_quiet "is_event_manager").
Qed.

Lemma optimize_clause_Some c s :
  optimize_clause (Some (String c s)) = Some (wrap_auth_uid (String c s)).
Proof. cbn [optimize_clause]. by rewrite wrap_helpers_quiet. Qed.

Lemma optimize_clause_truthy clause :
  truthy (optimize_clause clause) = truthy clause.
Proof.
  destruct clause as [[|c s]|]; [done| |done].
  rewrite optimize_clause_Some.
  pose proof (wrap_auth_uid_nonempty c s). by destruct wrap_auth_uid.
Qed.
End Optimizer.

(** * The clause optimizer: the claims *)

(** C1. The clause optimizer is idempotent: on every clause, absent, empty
    or not, a second run returns what the first returned; on the already
    wrapped text [(SELECT auth.uid())] it returns that text, with no second
    wrap. *)
Theorem optimize_clause_idempotent :
  (∀ clause, optimize_clause (optimize_clause clause) = optimize_clause clause)
  ∧ optimize_clause (Some "(SELECT auth.uid())") = Some "(SELECT auth.uid())"
  ∧ optimize_clause (optimize_clause (Some "auth.uid()"))
    = Some "(SELECT auth.uid())".
Proof.
  split; [|by vm_compute].
  intros [[|c s]|]; [done| |done].
  rewrite optimize_clause_Some.
  pose proof (wrap_auth_uid_nonempty c s) as Hne.
  destruct (wrap_auth_uid (String c s)) as [|c' s'] eqn:E; [done|].
  by rewrite optimize_clause_Some, <- E, wrap_auth_uid_idem.
Qed.

(** C2, as the specification words it: every [auth.uid()] that does not stand
    right after [(SELECT ] is replaced.  It fails on the clause
    [xauth.uid()]: the occurrence stands after the word character [x], the
    pattern's [\b] does not hold there, and the text is left as it is. *)
Lemma wrap_auth_uid_not_every_occurrence :
  ends_with "(SELECT " "x" = false
  ∧ wrap_auth_uid ("x" +:+ "auth.uid()" +:+ EmptyString) = "xauth.uid()"
  ∧ ¬ (∀ pre post,
         ends_with "(SELECT " pre = false →
         wrap_auth_uid (pre +:+ "auth.uid()" +:+ post)
         = wrap_auth_uid pre +:+ "(SELECT auth.uid())"
           +:+ Re.sub_after auth_uid_guard "auth.uid()" "(SELECT auth.uid())"
                 (pre +:+ "auth.uid()") post).
Proof.
  split; [done|]. split; [done|].
  intros H. specialize (H "x" EmptyString eq_refl). by vm_compute in H.
Qed.

(** C2, amended.  At every occurrence of [auth.uid()] in a clause, with
    [pre] the text before it and [post] the text after it: the occurrence is
    replaced by [(SELECT auth.uid())] when [pre] ends neither with [(SELECT ]
    nor with a word character, and is left as it is otherwise; the text
    before it is rewritten as it would be alone, and the text after it as
    the rest of the clause. *)
Theorem wrap_auth_uid_at_occurrence pre post :
  wrap_auth_uid (pre +:+ "auth.uid()" +:+ post)
  = wrap_auth_uid pre
    +:+ (if negb (ends_with "(SELECT " pre) && negb (ends_with_word pre)
         then "(SELECT auth.uid())" else "auth.uid()")
    +:+ Re.sub_after auth_uid_guard "auth.uid()" "(SELECT auth.uid())"
          (pre +:+ "auth.uid()") post.
Proof.
  unfold wrap_auth_uid, Re.sub, Re.sub_after.
  change (String.rev EmptyString) with EmptyString.
  rewrite scan1_app, scan1_at_occurrence.
  change (String.rev_app pre EmptyString) with (String.rev pre).
  rewrite auth_uid_guard_rev. unfold String.rev.
  by rewrite rev_app_app.
Qed.

(** C3. The four helper substitutions never match after the first one: none
    of their patterns occurs in its result, and on every clause
    [optimize_clause] returns what the first substitution alone returns. *)
Theorem optimize_clause_is_rule1 :
  (∀ clause, optimize_clause clause = optimize_clause_rule1_only clause)
  ∧ (∀ c s,
       optimize_clause (Some (String c s)) = Some (wrap_auth_uid (String c s)))
  ∧ (∀ s,
       contains "has_role(auth.uid()" (wrap_auth_uid s) = false
       ∧ contains "is_dev_admin(auth.uid()" (wrap_auth_uid s) = false
       ∧ contains "has_permission(auth.uid()" (wrap_auth_uid s) = false
       ∧ contains "is_event_manager(auth.uid()" (wrap_auth_uid s) = false).
Proof.
  split; [|split].
  - intros [[|c s]|]; [done| |done]. apply optimize_clause_Some.
  - apply optimize_clause_Some.
  - intros s.
    assert (∀ name, contains (name +:+ "(auth.uid()") (wrap_auth_uid s) = false)
      as H.
    { intros name. apply not_true_is_false.
      intros (pre & post & H)%contains_spec.
      by apply wrap_auth_uid_no_helper in H. }
    split; [apply (H "has_role")|].
    split; [apply (H "is_dev_admin")|].
    split; [apply (H "has_permission")|apply (H "is_event_manager")].
Qed.

(** C4. On [has_role(auth.uid(), 'admin')] the optimizer returns
    [has_role((SELECT auth.uid()), 'admin')]: the call name and the other
    argument are as they were, the inner call is wrapped once. *)
Theorem optimize_clause_has_role :
  optimize_clause (Some "has_role(auth.uid(), 'admin')")
  = Some "has_role((SELECT auth.uid()), 'admin')".
Proof. by vm_compute. Qed.

(** * The per-policy emitter: the claims *)

Section Emitter.
Implicit Types policy : gmap string (option string).

Lemma getitem_Some policy key v :
  policy !! key = Some v → getitem policy key = Ok v.
Proof. unfold getitem. by intros ->. Qed.

Lemma optimize_clause_None clause :
  optimize_clause clause = None
  ↔ clause = None ∨ clause = Some EmptyString.
Proof.
  destruct clause as [[|c s]|]; [by split; [right|]|..|by split; [left|]].
  rewrite optimize_clause_Some. split; [done|by intros [?|?]].
Qed.

Lemma optimize_clause_not_empty clause :
  optimize_clause clause ≠ Some EmptyString.
Proof.
  destruct clause as [[|c s]|]; [done| |done].
  rewrite optimize_clause_Some. intros H. injection H as H.
  by apply wrap_auth_uid_nonempty in H.
Qed.

Lemma generate_policy_sql_text policy tablename policyname cmd using_clause with_check_clause :
  policy !! "tablename" = Some tablename →
  policy !! "policyname" = Some policyname →
  policy !! "cmd" = Some cmd →
  policy !! "using_clause" = Some using_clause →
  policy !! "with_check_clause" = Some with_check_clause →
  generate_policy_sql policy
  = Ok (statement_head tablename policyname cmd
        +:+ using_block (optimize_clause using_clause)
        +:+ with_check_block (optimize_clause with_check_clause)
        +:+ ";" +:+ nl).
Proof.
  intros Ht Hp Hc Hu Hw. unfold generate_policy_sql.
  rewrite (getitem_Some _ _ _ Ht), (getitem_Some _ _ _ Hp),
    (getitem_Some _ _ _ Hc), (getitem_Some _ _ _ Hu),
    (getitem_Some _ _ _ Hw).
  cbn [mbind result_bind mret result_ret]. f_equal.
  pose proof (optimize_clause_not_empty using_clause) as Hu'.
  pose proof (optimize_clause_not_empty with_check_clause) as Hw'.
  unfold statement_head.
  destruct (optimize_clause using_clause) as [[|??]|];
    destruct (optimize_clause with_check_clause) as [[|??]|]; try done;
    cbn [truthy using_block with_check_block str];
    by rewrite ?append_assoc, ?append_nil_r.
Qed.

(** C5. For a record with the five keys, the statement is its three head
    lines, the USING block when the optimized [using_clause] is a text and
    nothing when it is absent, the WITH CHECK block likewise, and the
    terminator.  The optimized clause is absent exactly when the clause is
    absent or empty, and is never the empty text. *)
Theorem generate_policy_sql_blocks
    policy tablename policyname cmd using_clause with_check_clause :
  policy !! "tablename" = Some tablename →
  policy !! "policyname" = Some policyname →
  policy !! "cmd" = Some cmd →
  policy !! "using_clause" = Some using_clause →
  policy !! "with_check_clause" = Some with_check_clause →
  generate_policy_sql policy
  = Ok (statement_head tablename policyname cmd
        +:+ using_block (optimize_clause using_clause)
        +:+ with_check_block (optimize_clause with_check_clause)
        +:+ ";" +:+ nl)
  ∧ (optimize_clause using_clause = None
     ↔ using_clause = None ∨ using_clause = Some EmptyString)
  ∧ (optimize_clause with_check_clause = None
     ↔ with_check_clause = None ∨ with_check_clause = Some EmptyString)
  ∧ optimize_clause using_clause ≠ Some EmptyString
  ∧ optimize_clause with_check_clause ≠ Some EmptyString.
Proof.
  intros Ht Hp Hc Hu Hw.
  split; [by apply generate_policy_sql_text|].
  split; [apply optimize_clause_None|].
  split; [apply optimize_clause_None|].
  split; apply optimize_clause_not_empty.
Qed.

(** C10. A record that lacks one of the five keys has no statement:
    [generate_policy_sql] fails with the lookup error of a key the record
    lacks. *)
Theorem generate_policy_sql_missing_key policy key :
  key ∈ required_keys →
  policy !! key = None →
  ∃ key',
    key' ∈ required_keys ∧ policy !! key' = None
    ∧ generate_policy_sql policy = Err (KeyError key').
Proof.
  intros Hkey Hnone. unfold generate_policy_sql, getitem.
  destruct (policy !! "tablename") eqn:E1;
    [|exists "tablename"; split; [key_in|done]].
  destruct (policy !! "policyname") eqn:E2;
    [|exists "policyname"; split; [key_in|done]].
  destruct (policy !! "cmd") eqn:E3;
    [|exists "cmd"; split; [key_in|done]].
  destruct (policy !! "using_clause") eqn:E4;
    [|exists "using_clause"; split; [key_in|done]].
  destruct (policy !! "with_check_clause") eqn:E5;
    [|exists "with_check_clause"; split; [key_in|done]].
  exfalso. unfold required_keys in Hkey.
  repeat (apply elem_of_cons in Hkey as [->|Hkey]; [congruence|]).
  by apply elem_of_nil in Hkey.
Qed.
End Emitter.

(** C5 on the record [policy_p1]: a USING block and no WITH CHECK block. *)
Lemma generate_policy_sql_blocks_witness :
  generate_policy_sql policy_p1
  = Ok (statement_head (Some "orders") (Some "p1") (Some "SELECT")
        +:+ using_block (optimize_clause (Some "auth.uid() = user_id"))
        +:+ with_check_block (optimize_clause None)
        +:+ ";" +:+ nl).
Proof.
  apply (generate_policy_sql_blocks policy_p1 (Some "orders") (Some "p1")
           (Some "SELECT") (Some "auth.uid() = user_id") None);
    reflexivity.
Defined.

(** C10 on [policy_p1] without its [with_check_clause] key. *)
Lemma generate_policy_sql_missing_key_witness :
  ∃ key',
    key' ∈ required_keys
    ∧ delete "with_check_clause" policy_p1 !! key' = None
    ∧ generate_policy_sql (delete "with_check_clause" policy_p1)
      = Err (KeyError key').
Proof.
  apply (generate_policy_sql_missing_key
           (delete "with_check_clause" policy_p1) "with_check_clause").
  - key_in.
  - reflexivity.
Defined.

(** * The assembly: grouping, sorting and emission *)

Section Assembly.
Implicit Types
  (policy : gmap string (option string))
  (policies : list (gmap string (option string)))
  (tables : gmap (option string) (list (gmap string (option string))))
  (tablename : option string).

Lemma well_formed_tablename policy :
  well_formed policy = true →
  ∃ name, policy !! "tablename" = Some (Some name).
Proof.
  unfold well_formed. intros [H _]%andb_true_iff.
  destruct (policy !! "tablename") as [[name|]|]; [by exists name|done..].
Qed.

Lemma well_formed_statement policy :
  well_formed policy = true →
  generate_policy_sql policy = Ok (statement_of policy).
Proof.
  unfold well_formed. intros [_ H]%andb_true_iff.
  cbn [forallb required_keys] in H.
  apply andb_true_iff in H as [[v1 H1]%bool_decide_eq_true H].
  apply andb_true_iff in H as [[v2 H2]%bool_decide_eq_true H].
  apply andb_true_iff in H as [[v3 H3]%bool_decide_eq_true H].
  apply andb_true_iff in H as [[v4 H4]%bool_decide_eq_true H].
  apply andb_true_iff in H as [[v5 H5]%bool_decide_eq_true _].
  unfold statement_of.
  by rewrite (generate_policy_sql_text _ _ _ _ _ _ H1 H2 H3 H4 H5).
Qed.

(** One step of the grouping loop. *)
Lemma group_step_lookup tables policy tablename t :
  alter (λ bucket, bucket ++ [policy]) tablename
    match tables !! tablename with
    | None => <[tablename := []]> tables
    | Some _ => tables
    end !! t
  = if decide (tablename = t) then Some (tables !!! tablename ++ [policy])
    else tables !! t.
Proof.
  rewrite lookup_total_alt. case_decide as Ht.
  - subst t. rewrite lookup_alter_eq.
    destruct (tables !! tablename) as [b|] eqn:E.
    + by rewrite E.
    + by rewrite lookup_insert_eq.
  - rewrite lookup_alter_ne by done.
    destruct (tables !! tablename); [done|by rewrite lookup_insert_ne].
Qed.

(** The grouping loop appends to each bucket the records of its table, in
    the order of the input, and creates the buckets it needs. *)
Lemma group_by_table_spec policies :
  ∀ tables,
    Forall (λ policy, is_Some (policy !! "tablename")) policies →
    ∃ tables',
      group_by_table tables policies = Ok tables'
      ∧ ∀ t,
          tables' !!! t = tables !!! t ++ bucket t policies
          ∧ (is_Some (tables' !! t)
             ↔ is_Some (tables !! t) ∨ bucket t policies ≠ []).
Proof.
  induction policies as [|policy policies IH]; intros tables Hall.
  - exists tables. split; [done|]. intros t.
    unfold bucket. rewrite filter_nil, (right_id_L [] (++)).
    split; [done|]. split; [by left|by intros [?|?]].
  - apply Forall_cons in Hall as [[tablename Hname] Hall].
    cbn [group_by_table]. rewrite (getitem_Some _ _ _ Hname).
    cbn [mbind result_bind].
    edestruct IH as (tables' & -> & Hspec); [exact Hall|].
    exists tables'. split; [done|]. intros t.
    destruct (Hspec t) as [Htotal Hdom].
    rewrite Htotal, Hdom, (lookup_total_alt _ t), group_step_lookup.
    unfold bucket. case_decide as Ht.
    + subst t. rewrite filter_cons_True by done.
      cbn [default from_option id]. rewrite <- (assoc_L (++)).
      split; [done|]. split; [by right|]. intros _. left. by eexists.
    + rewrite filter_cons_False by congruence.
      by rewrite <- lookup_total_alt.
Qed.

Lemma mapM_Some names :
  mapM (λ key : option string,
          match key with
          | Some name => Ok name
          | None => Err TypeError
          end) (Some <$> names)
  = Ok names.
Proof.
  induction names as [|name names IH]; [done|].
  cbn [fmap list_fmap mapM]. cbn [fmap list_fmap] in IH.
  by rewrite IH.
Qed.

(** On keys that are all strings, [sorted] returns them in order. *)
Lemma sorted_strings names :
  ∃ names',
    sorted (Some <$> names) = Ok (Some <$> names')
    ∧ names' ≡ₚ names ∧ Sorted String.le names'.
Proof.
  destruct names as [|a [|b names]].
  - exists []. by repeat split; try constructor.
  - exists [a]. by repeat split; repeat constructor.
  - exists (merge_sort String.le (a :: b :: names)).
    split; [|split].
    + change (sorted (Some <$> a :: b :: names))
        with (names ← mapM (λ key : option string,
                              match key with
                              | Some name => Ok name
                              | None => Err TypeError
                              end) (Some <$> a :: b :: names);
              mret (M:=result) (Some <$> merge_sort String.le names)).
      by rewrite mapM_Some.
    + apply merge_sort_Permutation.
    + apply (Sorted_merge_sort _).
Qed.

Lemma emit_policies_ok policies :
  ∀ migration_sql,
    Forall (λ policy, well_formed policy = true) policies →
    emit_policies migration_sql policies
    = Ok (migration_sql +:+ statements policies).
Proof.
  induction policies as [|policy policies IH]; intros migration_sql Hall.
  - cbn. by rewrite append_nil_r.
  - apply Forall_cons in Hall as [Hwf Hall].
    cbn [emit_policies]. rewrite (well_formed_statement _ Hwf).
    cbn [mbind result_bind]. rewrite IH by done.
    unfold statements. cbn [fmap list_fmap cat foldr].
    by rewrite !append_assoc.
Qed.

Lemma emit_tables_ok tables names :
  ∀ migration_sql,
    (∀ t, t ∈ names →
          Forall (λ policy, well_formed policy = true) (tables !!! t)) →
    emit_tables tables migration_sql names
    = Ok (migration_sql
          +:+ cat ((λ t, banner t (length (tables !!! t))
                         +:+ statements (tables !!! t)) <$> names)).
Proof.
  induction names as [|t names IH]; intros migration_sql Hall.
  - cbn. by rewrite append_nil_r.
  - cbn [emit_tables]. rewrite emit_policies_ok
      by (apply Hall, list_elem_of_here).
    cbn [mbind result_bind]. rewrite IH
      by (intros ??; by apply Hall, list_elem_of_further).
    cbn [fmap list_fmap cat foldr]. by rewrite !append_assoc.
Qed.

Lemma bucket_nonempty tablename policies :
  bucket tablename policies ≠ []
  ↔ ∃ policy, policy ∈ policies ∧ policy !! "tablename" = Some tablename.
Proof.
  unfold bucket. split.
  - destruct (filter _ policies) as [|policy l] eqn:E; [done|]. intros _.
    assert (policy ∈ filter (λ policy, policy !! "tablename" = Some tablename)
              policies) as [??]%list_elem_of_filter
      by (rewrite E; apply list_elem_of_here).
    by exists policy.
  - intros (policy & Hin & Ht) E.
    assert (policy ∈ filter (λ policy, policy !! "tablename" = Some tablename)
              policies) as Hin'
      by by apply list_elem_of_filter.
    rewrite E in Hin'. by apply elem_of_nil in Hin'.
Qed.

Lemma bucket_well_formed tablename policies :
  Forall (λ policy, well_formed policy = true) policies →
  Forall (λ policy, well_formed policy = true) (bucket tablename policies).
Proof.
  rewrite !Forall_forall. intros H policy [_ ?]%list_elem_of_filter. auto.
Qed.

(** The dictionary the grouping loop builds from the empty one. *)
Lemma group_by_table_empty policies :
  Forall (λ policy, well_formed policy = true) policies →
  ∃ tables,
    group_by_table ∅ policies = Ok tables
    ∧ (∀ t, tables !!! t = bucket t policies)
    ∧ (∀ t, is_Some (tables !! t)
            ↔ ∃ policy, policy ∈ policies ∧ policy !! "tablename" = Some t).
Proof.
  intros Hwf.
  destruct (group_by_table_spec policies ∅) as (tables & Hg & Hspec).
  { eapply Forall_impl; [exact Hwf|]. intros policy Hp.
    destruct (well_formed_tablename _ Hp) as [name ->]. by eexists. }
  exists tables. split; [done|]. split; intros t; destruct (Hspec t) as [Ht Hd].
  - by rewrite Ht, lookup_total_empty.
  - rewrite Hd, lookup_empty, bucket_nonempty. split; [|by right].
    intros [[? [=]]|?]; done.
Qed.

Lemma all_Some_fmap (keys : list (option string)) :
  (∀ key, key ∈ keys → is_Some key) → keys = Some <$> omap id keys.
Proof.
  induction keys as [|[name|] keys IH]; intros H; [done|..].
  - cbn. f_equal. apply IH. intros key ?. by apply H, list_elem_of_further.
  - by destruct (H None (list_elem_of_here _ _)).
Qed.

(** The shape of the document for well-formed records. *)
Lemma main_shape policies :
  Forall (λ policy, well_formed policy = true) policies →
  ∃ names : list string,
    Sorted String.le names ∧ NoDup names
    ∧ (∀ name,
         name ∈ names
         ↔ ∃ policy,
             policy ∈ policies ∧ policy !! "tablename" = Some (Some name))
    ∧ main policies
      = Ok (header (length policies) (length names)
            +:+ cat (table_section policies <$> names) +:+ footer).
Proof.
  intros Hwf.
  destruct (group_by_table_empty policies Hwf) as (tables & Hg & Htot & Hdom).
  set (keys := (map_to_list tables).*1).
  assert (Hkeys : ∀ key, key ∈ keys ↔ is_Some (tables !! key)).
  { intros key. unfold keys. rewrite list_elem_of_fmap. split.
    - intros ([k v] & -> & Hkv%elem_of_map_to_list). by exists v.
    - intros [v Hv]. exists (key, v). by rewrite elem_of_map_to_list. }
  assert (Hstr : keys = Some <$> omap id keys).
  { apply all_Some_fmap. intros key (policy & Hin & Hk)%Hkeys%Hdom.
    rewrite Forall_forall in Hwf.
    destruct (well_formed_tablename _ (Hwf _ Hin)) as [name Hname].
    rewrite Hname in Hk. injection Hk as <-. by eexists. }
  set (names0 := omap id keys) in Hstr.
  destruct (sorted_strings names0) as (names & Hs & Hperm & Hsorted).
  rewrite <- Hstr in Hs.
  assert (Hin : ∀ name, name ∈ names ↔ is_Some (tables !! Some name)).
  { intros name. rewrite <- Hkeys, Hstr, Hperm, (list_elem_of_fmap Some).
    split; [by eexists|]. intros (name' & Heq & ?). by injection Heq as ->. }
  assert (Hnodup : NoDup names).
  { rewrite Hperm. apply (NoDup_fmap_1 Some). rewrite <- Hstr.
    apply NoDup_fst_map_to_list. }
  exists names. split; [done|]. split; [done|].
  split; [by intros name; rewrite Hin, Hdom|].
  unfold main. rewrite Hg. cbn [mbind result_bind]. fold keys.
  rewrite Hs. cbn [mbind result_bind].
  rewrite emit_tables_ok
    by (intros t _; rewrite Htot; by apply bucket_well_formed).
  cbn [mbind result_bind mret result_ret]. f_equal.
  rewrite append_assoc. f_equal.
  - f_equal. rewrite <- length_map_to_list.
    rewrite <- (length_fmap fst). fold keys.
    by rewrite Hstr, length_fmap, Hperm.
  - f_equal. f_equal. rewrite <- list_fmap_compose.
    apply list_fmap_ext. intros _ name _. cbn. unfold table_section.
    by rewrite Htot.
Qed.

Lemma concat_buckets_nil (names : list string) :
  concat ((λ name, bucket (Some name) []) <$> names) = [].
Proof. induction names as [|name names IH]; [done|]. cbn. apply IH. Qed.

Lemma concat_buckets_cons policy policies name (names : list string) :
  policy !! "tablename" = Some (Some name) →
  NoDup names →
  concat ((λ name, bucket (Some name) (policy :: policies)) <$> names)
  ≡ₚ (if decide (name ∈ names) then [policy] else [])
     ++ concat ((λ name, bucket (Some name) policies) <$> names).
Proof.
  intros Hname. induction names as [|m names IH]; intros Hnd.
  - by rewrite decide_False by apply not_elem_of_nil.
  - apply NoDup_cons in Hnd as [Hm Hnd]. cbn [fmap list_fmap concat].
    rewrite (IH Hnd). unfold bucket at 1.
    destruct (decide (m = name)) as [->|Hne].
    + rewrite filter_cons_True by done.
      rewrite (decide_False (P:=name ∈ names)) by done.
      by rewrite decide_True by apply list_elem_of_here.
    + rewrite filter_cons_False by congruence.
      destruct (decide (name ∈ names)) as [Hin|Hin].
      * rewrite decide_True by by apply list_elem_of_further.
        cbn [app]. symmetry. apply Permutation_middle.
      * rewrite decide_False; [done|].
        intros [?|?]%elem_of_cons; congruence.
Qed.

(** The buckets of the table names, one after the other, hold every
    record of the input once. *)
Lemma concat_buckets_permutation policies (names : list string) :
  NoDup names →
  (∀ policy, policy ∈ policies →
     ∃ name, name ∈ names ∧ policy !! "tablename" = Some (Some name)) →
  concat ((λ name, bucket (Some name) policies) <$> names) ≡ₚ policies.
Proof.
  intros Hnd. induction policies as [|policy policies IH]; intros Hall.
  - by rewrite concat_buckets_nil.
  - destruct (Hall policy (list_elem_of_here _ _)) as (name & Hin & Hname).
    rewrite (concat_buckets_cons _ _ name) by done.
    rewrite decide_True by done. cbn [app]. f_equiv.
    apply IH. intros p Hp. by apply Hall, list_elem_of_further.
Qed.

(** The line of the header that gives the two counts. *)
Lemma header_total_line count table_count :
  contains ("-- Total: " +:+ pretty count +:+ " policies across "
            +:+ pretty table_count +:+ " tables" +:+ nl)
    (header count table_count)
  = true.
Proof.
  apply contains_spec.
  exists (rule_eq +:+ nl
          +:+ "-- RLS Policy Optimization - Phase 8: COMPLETE DATABASE OPTIMIZATION"
          +:+ nl +:+ rule_eq +:+ nl +:+ "--" +:+ nl
          +:+ "-- This migration fixes ALL remaining unoptimized RLS policies in the database."
          +:+ nl).
  eexists. unfold header. rewrite !append_assoc. reflexivity.
Qed.

Lemma elem_of_distinct_tables name policies :
  name ∈ distinct_tables policies
  ↔ ∃ policy, policy ∈ policies ∧ policy !! "tablename" = Some (Some name).
Proof.
  unfold distinct_tables.
  rewrite elem_of_remove_dups, list_elem_of_omap.
  split; intros (policy & Hin & H); exists policy; split; try done.
  - by destruct (policy !! "tablename") as [[?|]|]; simplify_eq/=.
  - by rewrite H.
Qed.
End Assembly.

(** * The assembled document: the claims *)

(** C6. For the single record [p1] on [orders], with the clause
    [auth.uid() = user_id] and a null [with_check_clause], the document has
    the DROP line, the CREATE line, the ON line, a USING block around
    [(SELECT auth.uid()) = user_id], and no WITH CHECK anywhere. *)
Theorem main_round_trip :
  ∃ document,
    main [policy_p1] = Ok document
    ∧ contains ("DROP POLICY IF EXISTS " +:+ dq +:+ "p1" +:+ dq
                +:+ " ON orders;" +:+ nl) document = true
    ∧ contains ("CREATE POLICY " +:+ dq +:+ "p1" +:+ dq +:+ nl) document = true
    ∧ contains ("  ON orders FOR SELECT" +:+ nl) document = true
    ∧ contains ("  USING (" +:+ nl +:+ "    (SELECT auth.uid()) = user_id"
                +:+ nl +:+ "  )") document = true
    ∧ contains "WITH CHECK" document = false
    ∧ document
      = header 1 1
        +:+ banner (Some "orders") 1
        +:+ statement_head (Some "orders") (Some "p1") (Some "SELECT")
        +:+ using_block (Some "(SELECT auth.uid()) = user_id")
        +:+ ";" +:+ nl +:+ nl
        +:+ footer.
Proof. eexists. split; [by vm_compute|]. by vm_compute. Qed.

(** C7. For well-formed records, the document is the header, one section
    per table name and the footer.  The names of the sections are in
    lexicographic order with no repetition, they are the table names of the
    input, and the banner of a section gives the number of records of the
    input on its table.  For two records on [orders] around one on
    [accounts]: two banners, [accounts] with 1 before [orders] with 2. *)
Theorem banners_sorted_with_counts :
  (∀ policies,
     Forall (λ policy, well_formed policy = true) policies →
     ∃ names : list string,
       Sorted String.le names ∧ NoDup names
       ∧ (∀ name,
            name ∈ names
            ↔ ∃ policy,
                policy ∈ policies
                ∧ policy !! "tablename" = Some (Some name))
       ∧ main policies
         = Ok (header (length policies) (length names)
               +:+ cat ((λ name,
                           banner (Some name)
                             (length (bucket (Some name) policies))
                           +:+ statements (bucket (Some name) policies))
                          <$> names)
               +:+ footer))
  ∧ ∃ document,
      main three_policies = Ok document
      ∧ document
        = header 3 2
          +:+ banner (Some "accounts") 1 +:+ statements [policy_a1]
          +:+ banner (Some "orders") 2 +:+ statements [policy_p1; policy_p2]
          +:+ footer
      ∧ occurrences "-- TABLE: " document = 2
      ∧ contains ("-- TABLE: accounts (1 policies)" +:+ nl) document = true
      ∧ contains ("-- TABLE: orders (2 policies)" +:+ nl) document = true.
Proof.
  split; [apply main_shape|].
  eexists. split; [by vm_compute|]. by vm_compute.
Qed.

(** C7 on the three sample records. *)
Lemma banners_sorted_with_counts_witness :
  ∃ names : list string,
    Sorted String.le names ∧ NoDup names
    ∧ (∀ name,
         name ∈ names
         ↔ ∃ policy,
             policy ∈ three_policies
             ∧ policy !! "tablename" = Some (Some name))
    ∧ main three_policies
      = Ok (header (length three_policies) (length names)
            +:+ cat ((λ name,
                        banner (Some name)
                          (length (bucket (Some name) three_policies))
                        +:+ statements (bucket (Some name) three_policies))
                       <$> names)
            +:+ footer).
Proof.
  apply (proj1 banners_sorted_with_counts three_policies).
  repeat constructor.
Defined.

(** C8. For [N] well-formed records on [T] distinct table names, the
    document starts with the header for the counts [N] and [T], whose
    [Total] line prints both. *)
Theorem header_reports_counts policies :
  Forall (λ policy, well_formed policy = true) policies →
  (∃ body,
     main policies
     = Ok (header (length policies) (length (distinct_tables policies))
           +:+ body))
  ∧ contains ("-- Total: " +:+ pretty (length policies)
              +:+ " policies across "
              +:+ pretty (length (distinct_tables policies))
              +:+ " tables" +:+ nl)
      (header (length policies) (length (distinct_tables policies)))
    = true.
Proof.
  intros Hwf. split; [|apply header_total_line].
  destruct (main_shape policies Hwf) as (names & _ & Hnd & Hin & ->).
  assert (names ≡ₚ distinct_tables policies) as Hperm.
  { apply NoDup_Permutation; [done|apply NoDup_remove_dups|].
    intros name. by rewrite Hin, elem_of_distinct_tables. }
  apply Permutation_length in Hperm. rewrite Hperm. by eexists.
Qed.

(** C8 on the three sample records: 3 records, 2 tables. *)
Lemma header_reports_counts_witness :
  (∃ body,
     main three_policies
     = Ok (header (length three_policies)
             (length (distinct_tables three_policies)) +:+ body))
  ∧ contains ("-- Total: " +:+ pretty (length three_policies)
              +:+ " policies across "
              +:+ pretty (length (distinct_tables three_policies))
              +:+ " tables" +:+ nl)
      (header (length three_policies)
         (length (distinct_tables three_policies)))
    = true.
Proof. apply (header_reports_counts three_policies). repeat constructor. Defined.

(** C9. For well-formed records, the bucket the grouping loop builds for a
    table holds the records of the input on that table, in the order of the
    input; the section of a table in the document gives the statements of
    its bucket in that order; and the buckets of the sections together hold
    every record of the input once. *)
Theorem grouping_preserves_order policies :
  Forall (λ policy, well_formed policy = true) policies →
  ∃ tables (names : list string),
    group_by_table ∅ policies = Ok tables
    ∧ (∀ tablename,
         tables !!! tablename
         = filter (λ policy, policy !! "tablename" = Some tablename) policies)
    ∧ main policies
      = Ok (header (length policies) (length names)
            +:+ cat ((λ name,
                        banner (Some name) (length (tables !!! Some name))
                        +:+ statements (tables !!! Some name)) <$> names)
            +:+ footer)
    ∧ (∀ name, tables !!! Some name `sublist_of` policies)
    ∧ concat ((λ name, tables !!! Some name) <$> names) ≡ₚ policies.
Proof.
  intros Hwf.
  destruct (group_by_table_empty policies Hwf) as (tables & Hg & Htot & _).
  destruct (main_shape policies Hwf) as (names & _ & Hnd & Hin & Hmain).
  exists tables, names. split; [done|]. split; [done|].
  assert (∀ name : string, tables !!! Some name = bucket (Some name) policies)
    as Hb by (intros name; apply Htot).
  split; [|split].
  - rewrite Hmain. do 2 f_equal. f_equal. f_equal.
    apply list_fmap_ext. intros _ name _. unfold table_section.
    by rewrite Hb.
  - intros name. rewrite Hb. apply sublist_filter.
  - erewrite list_fmap_ext; [|intros _ name _; apply Hb].
    apply concat_buckets_permutation; [done|].
    intros policy Hp. rewrite Forall_forall in Hwf.
    destruct (well_formed_tablename _ (Hwf _ Hp)) as [name Hname].
    exists name. split; [|done]. apply Hin. by exists policy.
Qed.

(** C9 on the three sample records. *)
Lemma grouping_preserves_order_witness :
  ∃ tables (names : list string),
    group_by_table ∅ three_policies = Ok tables
    ∧ (∀ tablename,
         tables !!! tablename
         = filter (λ policy, policy !! "tablename" = Some tablename)
             three_policies)
    ∧ main three_policies
      = Ok (header (length three_policies) (length names)
            +:+ cat ((λ name,
                        banner (Some name) (length (tables !!! Some name))
                        +:+ statements (tables !!! Some name)) <$> names)
            +:+ footer)
    ∧ (∀ name, tables !!! Some name `sublist_of` three_policies)
    ∧ concat ((λ name, tables !!! Some name) <$> names) ≡ₚ three_policies.
Proof. apply (grouping_preserves_order three_policies). repeat constructor. Defined.

(** * Further properties of the optimizer *)

Section OptimizerMore.

Lemma optimize_clause_twice clause :
  optimize_clause (optimize_clause clause) = optimize_clause clause.
Proof.
  destruct clause as [[|c s]|]; [done| |done].
  rewrite optimize_clause_Some.
  pose proof (wrap_auth_uid_nonempty c s) as Hne.
  destruct (wrap_auth_uid (String c s)) as [|c' s'] eqn:E; [done|].
  by rewrite optimize_clause_Some, <- E, wrap_auth_uid_idem.
Qed.

(** X1. A clause that is not empty and in which [auth.uid()] occurs nowhere
    is returned as it is. *)
Theorem optimize_clause_without_auth_uid c s :
  contains "auth.uid()" (String c s) = false →
  optimize_clause (Some (String c s)) = Some (String c s).
Proof.
  intros Hno. rewrite optimize_clause_Some. f_equal.
  apply scan_quiet. intros pre post H. exfalso.
  apply not_true_iff_false in Hno. apply Hno, contains_spec. eauto.
Qed.

(** X2. In the text the optimizer returns, every [auth.uid()] stands right
    after [(SELECT ] or right after a word character. *)
Theorem optimize_clause_result_protected clause pre post :
  optimize_clause clause = Some (pre +:+ "auth.uid()" +:+ post) →
  ends_with "(SELECT " pre = true ∨ ends_with_word pre = true.
Proof.
  destruct clause as [[|c s]|]; [done| |done].
  rewrite optimize_clause_Some. intros H. injection H as H.
  apply wrap_auth_uid_protected in H. rewrite auth_uid_guard_rev in H.
  apply andb_false_iff in H as [H|H]; apply negb_false_iff in H; auto.
Qed.

End OptimizerMore.

(** X1 on a clause without the call. *)
Lemma optimize_clause_without_auth_uid_witness :
  optimize_clause (Some "owner_id = current_owner()")
  = Some "owner_id = current_owner()".
Proof.
  apply (optimize_clause_without_auth_uid "o" "wner_id = current_owner()").
  reflexivity.
Defined.

(** X2 on the result for [auth.uid() = id]. *)
Lemma optimize_clause_result_protected_witness :
  ends_with "(SELECT " "(SELECT " = true ∨ ends_with_word "(SELECT " = true.
Proof.
  apply (optimize_clause_result_protected (Some "auth.uid() = id")
           "(SELECT " ") = id").
  reflexivity.
Defined.

(** * Further properties of the per-policy emitter *)

Section EmitterMore.
Implicit Types policy : gmap string (option string).

Lemma generate_policy_sql_Ok_keys policy sql key :
  generate_policy_sql policy = Ok sql →
  key ∈ required_keys → is_Some (policy !! key).
Proof.
  unfold generate_policy_sql, getitem. intros H Hkey.
  destruct (policy !! "tablename") eqn:E1; [|done].
  destruct (policy !! "policyname") eqn:E2; [|done].
  destruct (policy !! "cmd") eqn:E3; [|done].
  destruct (policy !! "using_clause") eqn:E4; [|done].
  destruct (policy !! "with_check_clause") eqn:E5; [|done].
  unfold required_keys in Hkey.
  repeat (apply elem_of_cons in Hkey as [->|Hkey]; [by eexists|]).
  by apply elem_of_nil in Hkey.
Qed.


(** X4. The statement of a record depends on its five keys only: two
    records that agree on them have the same result, whatever other keys
    they hold. *)
Theorem generate_policy_sql_only_required policy policy' :
  (∀ key, key ∈ required_keys → policy !! key = policy' !! key) →
  generate_policy_sql policy = generate_policy_sql policy'.
Proof.
  intros H. unfold generate_policy_sql, getitem.
  rewrite (H "tablename"), (H "policyname"), (H "cmd"), (H "using_clause"),
    (H "with_check_clause"); [done|key_in..].
Qed.

(** X5. Running the emitter on a record whose two clauses have been
    replaced by their optimized forms gives the statement of the record
    itself. *)
Theorem generate_policy_sql_on_optimized
    policy tablename policyname cmd using_clause with_check_clause :
  policy !! "tablename" = Some tablename →
  policy !! "policyname" = Some policyname →
  policy !! "cmd" = Some cmd →
  policy !! "using_clause" = Some using_clause →
  policy !! "with_check_clause" = Some with_check_clause →
  generate_policy_sql
    (<["using_clause" := optimize_clause using_clause]>
       (<["with_check_clause" := optimize_clause with_check_clause]> policy))
  = generate_policy_sql policy.
Proof.
  intros Ht Hp Hc Hu Hw.
  rewrite (generate_policy_sql_text policy _ _ _ _ _ Ht Hp Hc Hu Hw).
  rewrite (generate_policy_sql_text _ tablename policyname cmd
             (optimize_clause using_clause)
             (optimize_clause with_check_clause)).
  - by rewrite !optimize_clause_twice.
  - by rewrite !lookup_insert_ne.
  - by rewrite !lookup_insert_ne.
  - by rewrite !lookup_insert_ne.
  - by rewrite lookup_insert_eq.
  - by rewrite lookup_insert_ne, lookup_insert_eq.
Qed.

End EmitterMore.

(** X4 on [policy_p1] and the same record with a [schemaname] key. *)
Lemma generate_policy_sql_only_required_witness :
  generate_policy_sql policy_p1
  = generate_policy_sql (<["schemaname" := Some "public"]> policy_p1).
Proof.
  apply (generate_policy_sql_only_required policy_p1
           (<["schemaname" := Some "public"]> policy_p1)).
  intros key Hkey. unfold required_keys in Hkey.
  repeat (apply elem_of_cons in Hkey as [->|Hkey]; [reflexivity|]).
  by apply elem_of_nil in Hkey.
Defined.

(** X5 on [policy_p2]. *)
Lemma generate_policy_sql_on_optimized_witness :
  generate_policy_sql
    (<["using_clause" := optimize_clause (Some "owner = auth.uid()")]>
       (<["with_check_clause" :=
            optimize_clause (Some "has_role(auth.uid(), 'admin')")]>
          policy_p2))
  = generate_policy_sql policy_p2.
Proof.
  apply (generate_policy_sql_on_optimized policy_p2 (Some "orders")
           (Some "p2") (Some "UPDATE")); reflexivity.
Defined.

(** * Further properties of the assembly *)

Section AssemblyMore.
Implicit Types
  (policy : gmap string (option string))
  (policies : list (gmap string (option string)))
  (tables : gmap (option string) (list (gmap string (option string)))).

Lemma group_by_table_missing policies :
  ∀ tables policy,
    policy ∈ policies → policy !! "tablename" = None →
    group_by_table tables policies = Err (KeyError "tablename").
Proof.
  induction policies as [|p policies IH]; intros tables policy Hin Hnone.
  - by apply elem_of_nil in Hin.
  - cbn [group_by_table]. unfold getitem at 1.
    destruct (p !! "tablename") as [t|] eqn:E; [|done].
    cbn [mbind result_bind].
    apply elem_of_cons in Hin as [->|Hin]; [congruence|].
    by apply (IH _ policy).
Qed.

Lemma group_by_table_Ok_tablename policies :
  ∀ tables tables',
    group_by_table tables policies = Ok tables' →
    Forall (λ policy, is_Some (policy !! "tablename")) policies.
Proof.
  induction policies as [|p policies IH]; intros tables tables' H; [done|].
  cbn [group_by_table] in H. unfold getitem at 1 in H.
  destruct (p !! "tablename") as [t|] eqn:E; [|done].
  cbn [mbind result_bind] in H. constructor; [done|]. by eapply IH.
Qed.

(** X6. A record without the [tablename] key, anywhere in the input, makes
    the run fail with the lookup error of that key, whatever the other
    records lack: the grouping loop reads every record first. *)
Theorem main_missing_tablename policies policy :
  policy ∈ policies → policy !! "tablename" = None →
  main policies = Err (KeyError "tablename").
Proof.
  intros Hin Hnone. unfold main.
  by rewrite (group_by_table_missing _ _ _ Hin Hnone).
Qed.

Lemma emit_policies_Ok_inv policies :
  ∀ migration_sql document policy,
    emit_policies migration_sql policies = Ok document →
    policy ∈ policies → ∃ sql, generate_policy_sql policy = Ok sql.
Proof.
  induction policies as [|p policies IH];
    intros migration_sql document policy H Hin.
  - by apply elem_of_nil in Hin.
  - cbn [emit_policies] in H.
    destruct (generate_policy_sql p) as [sql|] eqn:E; [|done].
    cbn [mbind result_bind] in H.
    apply elem_of_cons in Hin as [->|Hin]; [by exists sql|]. by eapply IH.
Qed.

Lemma emit_tables_Ok_inv tables names :
  ∀ migration_sql document t policy,
    emit_tables tables migration_sql names = Ok document →
    t ∈ names → policy ∈ tables !!! t →
    ∃ sql, generate_policy_sql policy = Ok sql.
Proof.
  induction names as [|n names IH];
    intros migration_sql document t policy H Ht Hin.
  - by apply elem_of_nil in Ht.
  - cbn [emit_tables] in H.
    destruct (emit_policies _ (tables !!! n)) as [text|] eqn:E; [|done].
    cbn [mbind result_bind] in H.
    apply elem_of_cons in Ht as [->|Ht].
    + by eapply emit_policies_Ok_inv.
    + by eapply IH.
Qed.

Lemma mapM_Ok_inv (keys : list (option string)) names :
  mapM (λ key : option string,
          match key with
          | Some name => Ok name
          | None => Err TypeError
          end) keys = Ok names →
  keys = Some <$> names.
Proof.
  revert names. induction keys as [|[n|] keys IH]; intros names H.
  - by injection H as <-.
  - cbn [mapM mbind result_bind] in H.
    destruct (mapM _ keys) as [l|] eqn:E; [|done].
    cbn [mbind result_bind mret result_ret] in H. injection H as <-.
    cbn. f_equal. by apply IH.
  - done.
Qed.

Lemma mapM_TypeError (keys : list (option string)) :
  None ∈ keys →
  mapM (λ key : option string,
          match key with
          | Some name => Ok name
          | None => Err TypeError
          end) keys = Err TypeError.
Proof.
  induction keys as [|[n|] keys IH]; intros Hin.
  - by apply elem_of_nil in Hin.
  - apply elem_of_cons in Hin as [?|Hin]; [done|].
    cbn [mapM mbind result_bind]. by rewrite (IH Hin).
  - done.
Qed.

Lemma sorted_Ok_perm keys names : sorted keys = Ok names → names ≡ₚ keys.
Proof.
  destruct keys as [|a [|b keys]]; intros H.
  - by injection H as <-.
  - by injection H as <-.
  - unfold sorted in H.
    destruct (mapM _ (a :: b :: keys)) as [l|] eqn:E; [|done].
    cbn [mbind result_bind mret result_ret] in H. injection H as <-.
    apply mapM_Ok_inv in E. rewrite E. f_equiv. apply merge_sort_Permutation.
Qed.

(** The dictionary of the grouping loop, for any records with the key. *)
Lemma group_by_table_tables policies tables :
  group_by_table ∅ policies = Ok tables →
  (∀ t, tables !!! t = bucket t policies)
  ∧ (∀ t, t ∈ (map_to_list tables).*1
          ↔ ∃ policy, policy ∈ policies ∧ policy !! "tablename" = Some t).
Proof.
  intros Hg.
  destruct (group_by_table_spec policies ∅) as (tables' & Hg' & Hspec).
  { by eapply group_by_table_Ok_tablename. }
  rewrite Hg in Hg'. injection Hg' as <-.
  split; intros t; destruct (Hspec t) as [Htot Hdom].
  - by rewrite Htot, lookup_total_empty.
  - rewrite <- bucket_nonempty. rewrite list_elem_of_fmap. split.
    + intros ([k v] & -> & Hkv%elem_of_map_to_list). cbn [fst] in *.
      destruct (proj1 Hdom (ex_intro _ v Hkv)) as [[? Hk]|?]; [|done].
      by rewrite lookup_empty in Hk.
    + intros Hne. destruct (proj2 Hdom (or_intror Hne)) as [v Hv].
      exists (t, v). by rewrite elem_of_map_to_list.
Qed.

(** X7. A run that returns a document has read the five keys in every
    record of the input: no document is assembled from a record that lacks
    one. *)
Theorem main_Ok_all_keys policies document policy key :
  main policies = Ok document →
  policy ∈ policies → key ∈ required_keys → is_Some (policy !! key).
Proof.
  unfold main. intros H Hin Hkey.
  destruct (group_by_table ∅ policies) as [tables|] eqn:Hg; [|done].
  cbn [mbind result_bind] in H.
  destruct (sorted (map_to_list tables).*1) as [names|] eqn:Hs; [|done].
  cbn [mbind result_bind] in H.
  destruct (emit_tables tables _ names) as [text|] eqn:He; [|done].
  destruct (group_by_table_tables _ _ Hg) as [Htot Hkeys].
  pose proof (group_by_table_Ok_tablename _ _ _ Hg) as Hall.
  rewrite Forall_forall in Hall. destruct (Hall _ Hin) as [t Ht].
  destruct (emit_tables_Ok_inv _ _ _ _ t policy He) as [sql Hsql].
  - rewrite (sorted_Ok_perm _ _ Hs). apply Hkeys. by exists policy.
  - rewrite Htot. by apply list_elem_of_filter.
  - by eapply generate_policy_sql_Ok_keys.
Qed.

(** X8. When every record has the [tablename] key, one of them with a null
    value and another with a string, the run fails with a type error: the
    sort of the table names compares [None] with a string. *)
Theorem main_null_and_string_table policies policy policy' name :
  Forall (λ policy, is_Some (policy !! "tablename")) policies →
  policy ∈ policies → policy !! "tablename" = Some None →
  policy' ∈ policies → policy' !! "tablename" = Some (Some name) →
  main policies = Err TypeError.
Proof.
  intros Hall Hin Hnull Hin' Hname.
  destruct (group_by_table_spec policies ∅ Hall) as (tables & Hg & _).
  destruct (group_by_table_tables _ _ Hg) as [_ Hkeys].
  unfold main. rewrite Hg. cbn [mbind result_bind].
  assert (None ∈ (map_to_list tables).*1) as Hn
    by (apply Hkeys; by exists policy).
  assert (Some name ∈ (map_to_list tables).*1) as Hs
    by (apply Hkeys; by exists policy').
  destruct ((map_to_list tables).*1) as [|a [|b keys]] eqn:E.
  - by apply elem_of_nil in Hn.
  - apply list_elem_of_singleton in Hn, Hs. congruence.
  - unfold sorted. by rewrite (mapM_TypeError _ Hn).
Qed.

Lemma bucket_swap t pre policy policy' post :
  policy !! "tablename" ≠ policy' !! "tablename" →
  bucket t (pre ++ policy :: policy' :: post)
  = bucket t (pre ++ policy' :: policy :: post).
Proof.
  intros Hne. unfold bucket. rewrite !filter_app, !filter_cons.
  repeat case_decide; try done. congruence.
Qed.

(** The document of well-formed records is determined by their buckets. *)
Lemma main_same_buckets policies policies' :
  Forall (λ policy, well_formed policy = true) policies →
  Forall (λ policy, well_formed policy = true) policies' →
  (∀ t, bucket t policies = bucket t policies') →
  main policies = main policies'.
Proof.
  intros Hwf Hwf' Hb.
  destruct (main_shape _ Hwf) as (names & Hs & Hnd & Hin & ->).
  destruct (main_shape _ Hwf') as (names' & Hs' & Hnd' & Hin' & ->).
  assert (names = names') as <-.
  { apply (Sorted_unique String.le); [done..|].
    apply NoDup_Permutation; [done..|]. intros name.
    by rewrite Hin, Hin', <- !bucket_nonempty, Hb. }
  assert (length policies = length policies') as ->.
  { apply Permutation_length.
    rewrite <- (concat_buckets_permutation policies names),
      <- (concat_buckets_permutation policies' names).
    - erewrite list_fmap_ext; [done|]. intros _ name _. apply Hb.
    - done.
    - intros p Hp. rewrite Forall_forall in Hwf'.
      destruct (well_formed_tablename _ (Hwf' _ Hp)) as [name Hname].
      exists name. split; [|done]. apply Hin'. by exists p.
    - done.
    - intros p Hp. rewrite Forall_forall in Hwf.
      destruct (well_formed_tablename _ (Hwf _ Hp)) as [name Hname].
      exists name. split; [|done]. apply Hin. by exists p. }
  do 2 f_equal. f_equal. f_equal. apply list_fmap_ext. intros _ name _.
  unfold table_section. by rewrite Hb.
Qed.

(** X9. Exchanging two neighbours of the input that are on different
    tables leaves the document as it is: only the order of the records
    within a table shows in it. *)
Theorem main_swap_other_table pre policy policy' post :
  policy !! "tablename" ≠ policy' !! "tablename" →
  Forall (λ policy, well_formed policy = true)
    (pre ++ policy :: policy' :: post) →
  main (pre ++ policy :: policy' :: post)
  = main (pre ++ policy' :: policy :: post).
Proof.
  intros Hne Hwf. apply main_same_buckets; [done| |].
  - rewrite Forall_app, !Forall_cons in *. tauto.
  - intros t. by apply bucket_swap.
Qed.

End AssemblyMore.

(** X6 on a well-formed record followed by one without [tablename]. *)
Lemma main_missing_tablename_witness :
  main [delete "cmd" policy_p1; delete "tablename" policy_a1]
  = Err (KeyError "tablename").
Proof.
  apply (main_missing_tablename _ (delete "tablename" policy_a1)).
  - apply list_elem_of_further, list_elem_of_here.
  - reflexivity.
Defined.

(** X7 on the three sample records and the key [cmd] of the second. *)
Lemma main_Ok_all_keys_witness :
  (∃ document, main three_policies = Ok document)
  ∧ is_Some (policy_a1 !! "cmd").
Proof.
  split; [eexists; by vm_compute|].
  eapply (main_Ok_all_keys three_policies _ policy_a1 "cmd").
  - by vm_compute.
  - apply list_elem_of_further, list_elem_of_here.
  - key_in.
Defined.

(** X8 on a record with a null table name and one on [orders]. *)
Lemma main_null_and_string_table_witness :
  main [<["tablename" := None]> policy_a1; policy_p1] = Err TypeError.
Proof.
  apply (main_null_and_string_table _ (<["tablename" := None]> policy_a1)
           policy_p1 "orders").
  - repeat constructor; by eexists.
  - apply list_elem_of_here.
  - reflexivity.
  - apply list_elem_of_further, list_elem_of_here.
  - reflexivity.
Defined.

(** X9 on the three sample records: the first two are on different
    tables. *)
Lemma main_swap_other_table_witness :
  main ([] ++ policy_p1 :: policy_a1 :: [policy_p2])
  = main ([] ++ policy_a1 :: policy_p1 :: [policy_p2]).
Proof.
  apply (main_swap_other_table [] policy_p1 policy_a1 [policy_p2]).
  - vm_compute. discriminate.
  - repeat constructor.
Defined.

(** * The first argument of any call *)

Section FirstArgument.

Lemma wrap_auth_uid_occurrence pre post :
  wrap_auth_uid (pre +:+ "auth.uid()" +:+ post)
  = wrap_auth_uid pre
    +:+ (if auth_uid_guard (String.rev pre) ("auth.uid()" +:+ post)
         then "(SELECT auth.uid())" else "auth.uid()")
    +:+ Re.sub_after auth_uid_guard "auth.uid()" "(SELECT auth.uid())"
          (pre +:+ "auth.uid()") post.
Proof.
  unfold wrap_auth_uid, Re.sub, Re.sub_after.
  change (String.rev EmptyString) with EmptyString.
  rewrite scan1_app, scan1_at_occurrence.
  change (String.rev_app pre EmptyString) with (String.rev pre).
  unfold String.rev. by rewrite rev_app_app.
Qed.

(** X10. An [auth.uid()] that stands right after an opening parenthesis,
    as the first argument of a call of any name, is wrapped by the
    optimizer, whatever comes before the parenthesis and after the call. *)
Theorem optimize_clause_first_argument pre post :
  optimize_clause (Some (pre +:+ "(auth.uid()" +:+ post))
  = Some (wrap_auth_uid (pre +:+ "(")
          +:+ "(SELECT auth.uid())"
          +:+ Re.sub_after auth_uid_guard "auth.uid()" "(SELECT auth.uid())"
                (pre +:+ "(auth.uid()") post).
Proof.
  replace (pre +:+ "(auth.uid()" +:+ post)
    with ((pre +:+ "(") +:+ "auth.uid()" +:+ post)
    by by rewrite !append_assoc.
  replace (pre +:+ "(auth.uid()") with ((pre +:+ "(") +:+ "auth.uid()")
    by by rewrite !append_assoc.
  assert (∃ c s, (pre +:+ "(") +:+ "auth.uid()" +:+ post = String c s)
    as (c & s & E) by (destruct pre; by eexists _, _).
  rewrite E, optimize_clause_Some, <- E, wrap_auth_uid_occurrence.
  by rewrite rev_app_distr.
Qed.

End FirstArgument.
